(** * nxsimd aligned allocator: a shallow embedding of
      [include/nxsimd/memory/nx_aligned_allocator.hpp]

    The header provides an allocator whose blocks start on a power-of-two
    boundary, a pair [aligned_malloc]/[aligned_free] selected by the
    preprocessor among five strategies, a portable fallback built on plain
    [malloc], and the helper [get_alignment_offset].

    Modelling choices.
    - [size_t] values are integers in [Z] taken modulo [2 ^ size_bits]; every
      addition, subtraction and multiplication the source performs on
      [size_t] is followed by [wrap].  Pointers are their numeric address
      ([reinterpret_cast<size_t>]); the null pointer is [0].
    - The only memory accesses of the header are pointer-sized loads and stores
      through a [void**].  Memory is therefore a finite map from the byte
      address of a cell to the pointer stored there.
    - The C library is not part of the header.  Its allocation functions are
      an interface ([Libc]) whose results may depend on the history of calls;
      every call is logged in a trace, so that "what was requested" and
      "what was released" are observable.
    - The macros tested by the [#if] chain come from
      [config/nx_platform_config.hpp]; they are the fields of
      [build_config]. *)

From Stdlib Require Import ZArith Lia List Bool.
From stdpp Require Import base gmap.

Local Open Scope Z_scope.

(** ** Target platform *)

Class Platform := {
  size_bits : Z;   (* width of size_t and of a pointer, in bits *)
  ptr_bytes : Z    (* sizeof(void* ) *)
}.

Definition size_modulus {P : Platform} : Z := 2 ^ size_bits.

(** Arithmetic on [size_t] is modulo [2 ^ size_bits]. *)
Definition wrap {P : Platform} (x : Z) : Z := x mod size_modulus.

(** [~x] on a [size_t]. *)
Definition size_not {P : Platform} (x : Z) : Z := wrap (Z.lnot x).

Definition is_pow2 (a : Z) : Prop := exists k, 0 <= k /\ a = 2 ^ k.

Definition is_pow2b (a : Z) : bool := (0 <? a) && (Z.land a (a - 1) =? 0).

Class PlatformOk (P : Platform) : Prop := {
  size_bits_pos : 0 < size_bits;
  ptr_bytes_pow2 : is_pow2 ptr_bytes;
  ptr_bytes_fits : ptr_bytes < size_modulus
}.

#[export] Instance lp64 : Platform := {| size_bits := 64; ptr_bytes := 8 |}.

Definition ilp32 : Platform := {| size_bits := 32; ptr_bytes := 4 |}.

(** ** The world: memory cells and the trace of C library calls *)

Inductive event : Type :=
| EvMalloc (n r : Z)                 (* malloc(n) returned r *)
| EvFree (p : Z)                     (* free(p) *)
| EvMmMalloc (n a r : Z)             (* _mm_malloc(n, a) returned r *)
| EvMmFree (p : Z)                   (* _mm_free(p) *)
| EvPosixMemalign (a n err r : Z)    (* posix_memalign(&res, a, n) returned err, res = r *)
| EvCrtAlignedMalloc (n a r : Z)     (* _aligned_malloc(n, a) returned r *)
| EvCrtAlignedFree (p : Z).          (* _aligned_free(p) *)

Record world : Type := World {
  mem : gmap Z Z;        (* pointer-sized cells, keyed by byte address *)
  trace : list event     (* newest call first *)
}.

(** The allocation functions of the C library.  Each sees the calls made so
    far.  [posix_memalign_fn tr a n] takes its arguments in the order of
    POSIX, [posix_memalign(void **memptr, size_t alignment, size_t size)],
    and yields the error code and the value left in [*memptr]. *)
Class Libc := {
  malloc_fn : list event -> Z -> Z;
  mm_malloc_fn : list event -> Z -> Z -> Z;
  posix_memalign_fn : list event -> Z -> Z -> Z * Z;
  crt_aligned_malloc_fn : list event -> Z -> Z -> Z
}.

Definition EINVAL : Z := 22.
Definition ENOMEM : Z := 12.

(** POSIX: the alignment must be a power of two multiple of [sizeof(void* )]. *)
Definition posix_alignment_ok {P : Platform} (a : Z) : bool :=
  is_pow2b a && (a mod ptr_bytes =? 0).

(** What the C library promises.  A block handed out lies inside the address
    space, its one-past-the-end address included. *)
Definition block_ok {P : Platform} (r n a : Z) : Prop :=
  0 < r /\ r + n < size_modulus /\ (a | r).

Class LibcOk (P : Platform) (L : Libc) : Prop := {
  malloc_ok : forall tr n, 0 <= n ->
    malloc_fn tr n = 0 \/ block_ok (malloc_fn tr n) n ptr_bytes;
  mm_malloc_ok : forall tr n a, 0 <= n -> is_pow2 a ->
    mm_malloc_fn tr n a = 0 \/ block_ok (mm_malloc_fn tr n a) n a;
  posix_memalign_ok : forall tr a n, 0 <= n ->
    (posix_alignment_ok a = false -> fst (posix_memalign_fn tr a n) = EINVAL) /\
    (fst (posix_memalign_fn tr a n) = 0 ->
       posix_alignment_ok a = true /\ block_ok (snd (posix_memalign_fn tr a n)) n a);
  crt_aligned_malloc_ok : forall tr n a, 0 <= n -> is_pow2 a ->
    crt_aligned_malloc_fn tr n a = 0 \/ block_ok (crt_aligned_malloc_fn tr n a) n a
}.

(** ** A state monad over the world *)

Definition M (A : Type) : Type := world -> A * world.

Definition ret {A} (a : A) : M A := fun w => (a, w).

Definition bind {A B} (m : M A) (k : A -> M B) : M B :=
  fun w => let (a, w') := m w in k a w'.

Notation "'let*' x := m 'in' k" := (bind m (fun x => k))
  (at level 10, x name, m at level 100, k at level 200, only parsing).

Definition log_event (e : event) (w : world) : world :=
  World (mem w) (e :: trace w).

Definition load_word (w : world) (addr : Z) : Z := default 0 (mem w !! addr).

Definition store_word (addr v : Z) (w : world) : world :=
  World (<[addr := v]> (mem w)) (trace w).

(** Calls into the C library. *)
Definition malloc {L : Libc} (n : Z) : M Z :=
  fun w => let r := malloc_fn (trace w) n in (r, log_event (EvMalloc n r) w).

Definition free (p : Z) : M unit :=
  fun w => (tt, log_event (EvFree p) w).

Definition mm_malloc {L : Libc} (n a : Z) : M Z :=
  fun w => let r := mm_malloc_fn (trace w) n a in (r, log_event (EvMmMalloc n a r) w).

Definition mm_free (p : Z) : M unit :=
  fun w => (tt, log_event (EvMmFree p) w).

Definition posix_memalign {L : Libc} (a n : Z) : M (Z * Z) :=
  fun w => let er := posix_memalign_fn (trace w) a n in
           (er, log_event (EvPosixMemalign a n (fst er) (snd er)) w).

Definition crt_aligned_malloc {L : Libc} (n a : Z) : M Z :=
  fun w => let r := crt_aligned_malloc_fn (trace w) n a in
           (r, log_event (EvCrtAlignedMalloc n a r) w).

Definition crt_aligned_free (p : Z) : M unit :=
  fun w => (tt, log_event (EvCrtAlignedFree p) w).

(** [*(void** )addr = v] and [*(void** )addr]. *)
Definition store_ptr (addr v : Z) : M unit := fun w => (tt, store_word addr v w).

Definition load_ptr (addr : Z) : M Z := fun w => (load_word w addr, w).

(** ** namespace detail: the portable fallback *)

Module detail.

(** [nx_aligned_malloc], lines 188-200. *)
Definition nx_aligned_malloc {P : Platform} {L : Libc} (size alignment : Z) : M Z :=
  let* ptr := malloc (wrap (size + alignment)) in
  if negb (ptr =? 0) then
    let res := wrap (Z.land ptr (size_not (wrap (alignment - 1))) + alignment) in
    let* _u := store_ptr (wrap (res - ptr_bytes)) ptr in
    ret res
  else ret 0.

(** [nx_aligned_free], lines 202-206. *)
Definition nx_aligned_free {P : Platform} (ptr : Z) : M unit :=
  if negb (ptr =? 0) then
    let* raw := load_ptr (wrap (ptr - ptr_bytes)) in
    free raw
  else ret tt.

End detail.

(** ** Strategy selection *)

(** The macros of the [#if] chain; they are set by the platform
    configuration header and by the compiler. *)
Record build_config : Type := BuildConfig {
  NX_MALLOC_ALREADY_ALIGNED : bool;
  NX_HAS_MM_MALLOC : bool;
  NX_HAS_POSIX_MEMALIGN : bool;
  MSC_VER : bool
}.

(** [aligned_malloc], lines 209-226.  The third branch passes [size] where
    [posix_memalign] expects the alignment and [alignment] where it expects
    the size, as the source does. *)
Definition aligned_malloc {P : Platform} {L : Libc} (cfg : build_config)
    (size alignment : Z) : M Z :=
  if NX_MALLOC_ALREADY_ALIGNED cfg then malloc size
  else if NX_HAS_MM_MALLOC cfg then mm_malloc size alignment
  else if NX_HAS_POSIX_MEMALIGN cfg then
    let* er := posix_memalign size alignment in
    ret (if negb (fst er =? 0) then 0 else snd er)
  else if MSC_VER cfg then crt_aligned_malloc size alignment
  else detail.nx_aligned_malloc size alignment.

(** [aligned_free], lines 228-241. *)
Definition aligned_free {P : Platform} (cfg : build_config) (ptr : Z) : M unit :=
  if NX_MALLOC_ALREADY_ALIGNED cfg then free ptr
  else if NX_HAS_MM_MALLOC cfg then mm_free ptr
  else if NX_HAS_POSIX_MEMALIGN cfg then free ptr
  else if MSC_VER cfg then crt_aligned_free ptr
  else detail.nx_aligned_free ptr.

(** ** aligned_allocator<T, Align> *)

(** An allocator holds no data; its template arguments are what
    distinguishes one instantiation from another. *)
Record aligned_allocator : Type := Allocator {
  sizeof_T : Z;     (* sizeof(T) *)
  alignment : Z     (* static constexpr size_t alignment = Align *)
}.

Inductive exception : Type := bad_alloc.

Inductive outcome (A : Type) : Type :=
| Returned (a : A)
| Thrown (e : exception).
Arguments Returned {A} a.
Arguments Thrown {A} e.

(** [allocate], lines 129-138; [hint] is not used. *)
Definition allocate {P : Platform} {L : Libc} (cfg : build_config)
    (self : aligned_allocator) (n hint : Z) : M (outcome Z) :=
  let* res := aligned_malloc cfg (wrap (sizeof_T self * n)) (alignment self) in
  if res =? 0 then ret (Thrown bad_alloc) else ret (Returned res).

(** [deallocate], lines 140-144. *)
Definition deallocate {P : Platform} (cfg : build_config)
    (self : aligned_allocator) (p n : Z) : M unit :=
  aligned_free cfg p.

(** [size_max], lines 146-151: [size_type(-1) / sizeof(T)]. *)
Definition size_max {P : Platform} (self : aligned_allocator) : Z :=
  wrap (-1) / sizeof_T self.

(** [operator==] and [operator!=], lines 167-179. *)
Definition op_eq (lhs rhs : aligned_allocator) : bool :=
  alignment lhs =? alignment rhs.

Definition op_ne (lhs rhs : aligned_allocator) : bool :=
  negb (op_eq lhs rhs).

(** [rebind<U>::other], lines 45-49, is [aligned_allocator<U, Align>]; the
    converting constructor, lines 104-108, builds it and copies nothing. *)
Definition rebind (self : aligned_allocator) (sizeof_U : Z) : aligned_allocator :=
  Allocator sizeof_U (alignment self).

(** ** get_alignment_offset, lines 243-268 *)

(** [szT] is [sizeof(T)] of the template argument, [p] the address held by
    the pointer. *)
Definition get_alignment_offset {P : Platform} (szT p size block_size : Z) : Z :=
  if block_size =? 1 then 0
  else if negb (Z.land p (wrap (szT - 1)) =? 0) then size
  else
    let block_mask := wrap (block_size - 1) in
    Z.min (Z.land (wrap (block_size - Z.land (p / szT) block_mask)) block_mask)
          size.

(** ** A concrete C library: a bump allocator

    Blocks are carved upwards from [heap_base]; each is preceded by an
    eight-byte chunk header; nothing is ever reused.  It is used to run the
    header on concrete inputs. *)

Definition heap_base : Z := 4096.
Definition heap_limit : Z := 1048576.
Definition chunk_header : Z := 8.

Definition round_up (x a : Z) : Z := (x + a - 1) / a * a.

Definition block_end (e : event) : Z :=
  match e with
  | EvMalloc n r => if r =? 0 then 0 else r + n
  | EvMmMalloc n _ r => if r =? 0 then 0 else r + n
  | EvPosixMemalign _ n err r => if err =? 0 then r + n else 0
  | EvCrtAlignedMalloc n _ r => if r =? 0 then 0 else r + n
  | EvFree _ | EvMmFree _ | EvCrtAlignedFree _ => 0
  end.

Definition brk (tr : list event) : Z :=
  fold_right (fun e acc => Z.max (block_end e) acc) heap_base tr.

Definition bump (tr : list event) (n a : Z) : Z :=
  let r := round_up (brk tr + chunk_header) a in
  if r + n <? heap_limit then r else 0.

Definition bump_libc {P : Platform} : Libc := {|
  malloc_fn tr n := bump tr n 16;
  mm_malloc_fn tr n a := bump tr n a;
  posix_memalign_fn tr a n :=
    if posix_alignment_ok a then
      let r := bump tr n a in if r =? 0 then (ENOMEM, 0) else (0, r)
    else (EINVAL, 0);
  crt_aligned_malloc_fn tr n a := bump tr n a
|}.

Definition w0 : world := World ∅ [].

Definition fallback_build : build_config := BuildConfig false false false false.
Definition posix_build : build_config := BuildConfig false false true false.
Definition glibc_build : build_config := BuildConfig true false false false.


(** ** Vocabulary of the statements *)

(** [q] is the least multiple of [a] that is at least [lo]. *)
Definition first_multiple_from (a lo q : Z) : Prop :=
  lo <= q /\ (a | q) /\ forall x, lo <= x -> (a | x) -> q <= x.

(** [q] is the least multiple of [a] strictly above [lo]. *)
Definition first_multiple_above (a lo q : Z) : Prop :=
  lo < q /\ (a | q) /\ forall x, lo < x -> (a | x) -> q <= x.

(** The byte range [lo, lo + len) lies inside the block [base, base + n). *)
Definition within_block (base n lo len : Z) : Prop :=
  base <= lo /\ lo + len <= base + n.

(** The byte ranges [lo1, lo1 + len1) and [lo2, lo2 + len2) do not meet. *)
Definition disjoint_ranges (lo1 len1 lo2 len2 : Z) : Prop :=
  lo1 + len1 <= lo2 \/ lo2 + len2 <= lo1.

(** The pointer a call of the C library handed out. *)
Definition acquired (e : event) : option Z :=
  match e with
  | EvMalloc _ r => Some r
  | EvMmMalloc _ _ r => Some r
  | EvPosixMemalign _ _ err r => if err =? 0 then Some r else None
  | EvCrtAlignedMalloc _ _ r => Some r
  | EvFree _ | EvMmFree _ | EvCrtAlignedFree _ => None
  end.

(** The pointer a call of the C library took back. *)
Definition released (e : event) : option Z :=
  match e with
  | EvFree p => Some p
  | EvMmFree p => Some p
  | EvCrtAlignedFree p => Some p
  | EvMalloc _ _ | EvMmMalloc _ _ _ | EvPosixMemalign _ _ _ _
  | EvCrtAlignedMalloc _ _ _ => None
  end.

(** The release function that goes with an allocation function: [free] with
    [malloc] and [posix_memalign], [_mm_free] with [_mm_malloc],
    [_aligned_free] with [_aligned_malloc]. *)
Definition release_matches (acq rel : event) : bool :=
  match acq, rel with
  | EvMalloc _ _, EvFree _ => true
  | EvPosixMemalign _ _ _ _, EvFree _ => true
  | EvMmMalloc _ _ _, EvMmFree _ => true
  | EvCrtAlignedMalloc _ _ _, EvCrtAlignedFree _ => true
  | _, _ => false
  end.

(** Element [i] of an array at address [p], of elements of [szT] bytes,
    starts on a boundary of [block_size] elements. *)
Definition block_aligned (szT block_size p i : Z) : Prop :=
  (szT * block_size | p + szT * i).

(** * Properties *)

(** ** Arithmetic on [size_t] *)

Lemma lp64_ok : PlatformOk lp64.
Proof.
  split.
  - reflexivity.
  - exists 3. split; [lia | reflexivity].
  - reflexivity.
Qed.

Lemma ilp32_ok : PlatformOk ilp32.
Proof.
  split.
  - reflexivity.
  - exists 2. split; [lia | reflexivity].
  - reflexivity.
Qed.

Lemma is_pow2_pos a : is_pow2 a -> 0 < a.
Proof. intros (k & Hk & ->). apply Z.pow_pos_nonneg; lia. Qed.

Lemma is_pow2_16 : is_pow2 16.
Proof. exists 4. split; [lia | reflexivity]. Qed.

Lemma is_pow2_4 : is_pow2 4.
Proof. exists 2. split; [lia | reflexivity]. Qed.

Section SizeArith.
Context {P : Platform} {HP : PlatformOk P}.

Lemma size_modulus_pos : 0 < size_modulus.
Proof.
  unfold size_modulus. apply Z.pow_pos_nonneg; [lia |].
  pose proof size_bits_pos. lia.
Qed.

Lemma wrap_range x : 0 <= wrap x < size_modulus.
Proof. unfold wrap. apply Z.mod_pos_bound, size_modulus_pos. Qed.

Lemma wrap_small x : 0 <= x < size_modulus -> wrap x = x.
Proof. intros Hx. unfold wrap. now apply Z.mod_small. Qed.

Lemma wrap_ones : wrap (-1) = size_modulus - 1.
Proof.
  unfold wrap. pose proof size_modulus_pos.
  symmetry. apply Z.mod_unique_pos with (q := -1); lia.
Qed.

(** A mask [2^k - 1] selects the remainder modulo [2^k]. *)
Lemma land_mask x k : 0 <= k -> Z.land x (2 ^ k - 1) = x mod 2 ^ k.
Proof.
  intros Hk. rewrite <- Z.land_ones by assumption.
  now rewrite Z.ones_equiv, Z.sub_1_r.
Qed.

(** [x & ~(2^k - 1)] clears the low [k] bits, also when the complement is
    taken on [size_bits] bits. *)
Lemma land_not_mask x k :
  0 <= k -> 0 <= x < size_modulus ->
  Z.land x (size_not (2 ^ k - 1)) = x - x mod 2 ^ k.
Proof.
  intros Hk Hx. unfold size_not, wrap, size_modulus in *.
  pose proof size_bits_pos as Hw.
  rewrite <- Z.land_ones by lia.
  rewrite Z.land_assoc, (Z.land_comm x), <- Z.land_assoc.
  rewrite (Z.land_ones x) by lia.
  rewrite (Z.mod_small x) by assumption.
  replace (2 ^ k - 1) with (Z.ones k) by (rewrite Z.ones_equiv; lia).
  rewrite Z.land_comm, <- Z.ldiff_land.
  rewrite Z.ldiff_ones_r by assumption.
  rewrite Z.shiftl_mul_pow2, Z.shiftr_div_pow2 by assumption.
  pose proof (Z.pow_pos_nonneg 2 k).
  rewrite (Z.mod_eq x (2 ^ k)) by lia. lia.
Qed.

End SizeArith.

(** ** get_alignment_offset *)

Section AlignmentOffset.
Context {P : Platform} {HP : PlatformOk P}.

(** The scalar-granularity test of the source, on an element size that is a
    power of two, is the divisibility test. *)
Lemma scalar_mask_test szT p :
  is_pow2 szT -> szT < size_modulus ->
  (Z.land p (wrap (szT - 1)) =? 0) = (p mod szT =? 0).
Proof.
  intros (k & Hk & ->) Hfit.
  pose proof (Z.pow_pos_nonneg 2 k).
  rewrite wrap_small by lia.
  now rewrite land_mask.
Qed.

(** The block arithmetic of the third case, for a block size that is a power
    of two. *)
Lemma block_mask_arith idx block_size :
  is_pow2 block_size -> block_size < size_modulus ->
  Z.land (wrap (block_size - Z.land idx (wrap (block_size - 1))))
         (wrap (block_size - 1))
  = (block_size - idx mod block_size) mod block_size.
Proof.
  intros (k & Hk & ->) Hfit.
  pose proof (Z.pow_pos_nonneg 2 k).
  rewrite (wrap_small (2 ^ k - 1)) by lia.
  rewrite (land_mask idx) by assumption.
  pose proof (Z.mod_pos_bound idx (2 ^ k)).
  rewrite wrap_small by lia.
  now rewrite land_mask.
Qed.

(** C3 (as amended).  When [sizeof(T)] is a power of two and
    [block_size > 1], a pointer whose address is not a multiple of
    [sizeof(T)] makes [get_alignment_offset] return [size]. *)
Theorem get_alignment_offset_scalar_misaligned szT p size block_size :
  is_pow2 szT -> szT < size_modulus ->
  1 < block_size ->
  p mod szT <> 0 ->
  get_alignment_offset szT p size block_size = size.
Proof.
  intros Hsz Hfit Hbs Hp. unfold get_alignment_offset.
  destruct (Z.eqb_spec block_size 1) as [-> | _]; [lia |].
  rewrite scalar_mask_test by assumption.
  destruct (Z.eqb_spec (p mod szT) 0); [contradiction | reflexivity].
Qed.

(** C4 (as amended).  When [sizeof(T)] and [block_size] are powers of two,
    [block_size > 1] and the address of [p] is a multiple of [sizeof(T)],
    the result is the minimum of [size] and
    [(block_size - index mod block_size) mod block_size], where [index] is
    the address divided by [sizeof(T)]. *)
Theorem get_alignment_offset_aligned szT p size block_size :
  is_pow2 szT -> szT < size_modulus ->
  is_pow2 block_size -> 1 < block_size < size_modulus ->
  p mod szT = 0 ->
  get_alignment_offset szT p size block_size
  = Z.min size ((block_size - (p / szT) mod block_size) mod block_size).
Proof.
  intros Hsz Hfit Hbp [Hbs Hbfit] Hp. unfold get_alignment_offset.
  destruct (Z.eqb_spec block_size 1) as [-> | _]; [lia |].
  rewrite scalar_mask_test by assumption.
  rewrite Hp. cbn [Z.eqb negb].
  rewrite block_mask_arith by assumption.
  apply Z.min_comm.
Qed.

(** C7.  The value returned by [get_alignment_offset] lies in [[0, size]],
    for every pointer, element size and block size.  The function is pure:
    it neither takes nor returns a [world]. *)
Theorem get_alignment_offset_range szT p size block_size :
  0 <= size ->
  0 <= get_alignment_offset szT p size block_size <= size.
Proof.
  intros Hsize. unfold get_alignment_offset.
  destruct (block_size =? 1); [lia |].
  destruct (negb _); [lia |].
  assert (0 <= Z.land (wrap (block_size - Z.land (p / szT) (wrap (block_size - 1))))
                      (wrap (block_size - 1))).
  { apply Z.land_nonneg. left. apply wrap_range. }
  lia.
Qed.

(** With a block of one scalar every element is well aligned. *)
Lemma get_alignment_offset_block_one szT p size :
  get_alignment_offset szT p size 1 = 0.
Proof. reflexivity. Qed.

End AlignmentOffset.

(** The example of the specification: four-byte elements, blocks of four,
    address 1028. *)
Example get_alignment_offset_1028 : get_alignment_offset 4 1028 100 4 = 3.
Proof. reflexivity. Qed.

Lemma get_alignment_offset_scalar_misaligned_witness :
  get_alignment_offset 4 1030 100 4 = 100.
Proof.
  apply (get_alignment_offset_scalar_misaligned (P := lp64)).
  - exact is_pow2_4.
  - reflexivity.
  - lia.
  - vm_compute. discriminate.
Defined.

(** C3, as stated, fails for an element of twelve bytes (three floats, or
    [long double] on ia32): address 4 is not a multiple of 12, yet the mask
    [12 - 1 = 0b1011] does not see it, and the third case answers 0 instead of
    [size = 5]. *)
Lemma get_alignment_offset_mask_misses_12 :
  4 mod 12 <> 0 /\ 1 < 4 /\
  get_alignment_offset (P := ilp32) 12 4 5 4 = 0 /\
  get_alignment_offset (P := ilp32) 12 4 5 4 <> 5.
Proof. vm_compute. repeat split; discriminate. Qed.

Lemma get_alignment_offset_aligned_witness :
  get_alignment_offset 4 1028 100 4
  = Z.min 100 ((4 - (1028 / 4) mod 4) mod 4).
Proof.
  apply (get_alignment_offset_aligned (P := lp64)).
  - exact is_pow2_4.
  - reflexivity.
  - exact is_pow2_4.
  - vm_compute. split; reflexivity.
  - reflexivity.
Defined.

(** C4, as stated, fails in two ways.  With [block_size = 3] the mask
    [3 - 1 = 0b10] is not a remainder: index 2 gives 0 where the formula
    gives 1.  With a twelve-byte element, address 12 is a multiple of
    [sizeof(T)] but the scalar test rejects it and [size] is returned, where
    the formula gives 3. *)
Lemma get_alignment_offset_formula_fails :
  (8 mod 4 = 0 /\ 1 < 3 /\
   get_alignment_offset 4 8 10 3 = 0 /\
   Z.min 10 ((3 - (8 / 4) mod 3) mod 3) = 1) /\
  (12 mod 12 = 0 /\ 1 < 4 /\
   get_alignment_offset 12 12 10 4 = 10 /\
   Z.min 10 ((4 - (12 / 12) mod 4) mod 4) = 3).
Proof. vm_compute. repeat split. Qed.

Lemma get_alignment_offset_range_witness :
  0 <= get_alignment_offset 4 1028 2 4 <= 2.
Proof.
  apply (get_alignment_offset_range (P := lp64) (HP := lp64_ok)). lia.
Defined.

(** ** Memory cells *)

Lemma load_store_same addr v w : load_word (store_word addr v w) addr = v.
Proof. unfold load_word, store_word. cbn. now rewrite lookup_insert_eq. Qed.

Lemma load_store_other addr addr' v w :
  addr <> addr' -> load_word (store_word addr v w) addr' = load_word w addr'.
Proof.
  intros Hne. unfold load_word, store_word. cbn.
  now rewrite lookup_insert_ne.
Qed.

Lemma load_log_event e w addr : load_word (log_event e w) addr = load_word w addr.
Proof. reflexivity. Qed.

(** ** The portable fallback *)

Section Fallback.
Context {P : Platform} {HP : PlatformOk P} {L : Libc}.

(** The two paths of [nx_aligned_malloc]. *)
Lemma nx_aligned_malloc_null size align w :
  malloc_fn (trace w) (wrap (size + align)) = 0 ->
  detail.nx_aligned_malloc size align w
  = (0, log_event (EvMalloc (wrap (size + align)) 0) w).
Proof.
  intros Hm. unfold detail.nx_aligned_malloc, bind, malloc, ret.
  now rewrite Hm.
Qed.

Lemma nx_aligned_malloc_nonnull size align w :
  let ptr := malloc_fn (trace w) (wrap (size + align)) in
  let res := wrap (Z.land ptr (size_not (wrap (align - 1))) + align) in
  ptr <> 0 ->
  detail.nx_aligned_malloc size align w
  = (res, store_word (wrap (res - ptr_bytes)) ptr
            (log_event (EvMalloc (wrap (size + align)) ptr) w)).
Proof.
  intros ptr res Hm. unfold detail.nx_aligned_malloc, bind, malloc, ret, store_ptr.
  fold ptr. destruct (Z.eqb_spec ptr 0); [contradiction | reflexivity].
Qed.

(** The address computed on the success path: the raw address rounded down
    to the boundary, plus one full step. *)
Lemma aligned_address_eq ptr align :
  is_pow2 align -> 0 <= ptr -> ptr + align < size_modulus ->
  wrap (Z.land ptr (size_not (wrap (align - 1))) + align)
  = ptr - ptr mod align + align.
Proof.
  intros (k & Hk & ->) Hptr Hfit.
  pose proof (Z.pow_pos_nonneg 2 k).
  rewrite (wrap_small (2 ^ k - 1)) by lia.
  rewrite land_not_mask by lia.
  pose proof (Z.mod_pos_bound ptr (2 ^ k)).
  apply wrap_small. lia.
Qed.

Lemma round_down_step_divide ptr align :
  0 < align -> (align | ptr - ptr mod align + align).
Proof.
  intros Ha. exists (ptr / align + 1).
  rewrite (Z.mod_eq ptr align) by lia. lia.
Qed.

Lemma first_multiple_above_step ptr align :
  0 < align -> first_multiple_above align ptr (ptr - ptr mod align + align).
Proof.
  intros Ha. pose proof (Z.mod_pos_bound ptr align).
  repeat split.
  - lia.
  - now apply round_down_step_divide.
  - intros x Hx [c ->].
    assert (ptr / align < c).
    { apply Z.div_lt_upper_bound; lia. }
    rewrite (Z.mod_eq ptr align) by lia. nia.
Qed.

Lemma headroom_arith b m c d r :
  0 < b -> 0 < m -> c * b = m * b * d + r -> 0 <= r < m * b ->
  b <= m * b - r.
Proof.
  intros Hb Hm Heq Hr.
  assert (r = (c - m * d) * b) as Hrt by lia.
  assert (c - m * d < m) by nia.
  nia.
Qed.

(** A pointer-aligned raw address is at least one pointer below the next
    boundary, when the boundary is a multiple of the pointer size. *)
Lemma headroom_for_back_pointer ptr align :
  is_pow2 align -> ptr_bytes <= align -> (ptr_bytes | ptr) ->
  ptr_bytes <= align - ptr mod align.
Proof.
  intros (k & Hk & ->) Hle [c Hc].
  destruct (ptr_bytes_pow2 (P := P)) as (j & Hj & Hpb).
  assert (0 < 2 ^ k) as Hkpos by (apply Z.pow_pos_nonneg; lia).
  assert (0 < ptr_bytes) as Hbpos by (rewrite Hpb; apply Z.pow_pos_nonneg; lia).
  assert (j <= k) as Hjk.
  { apply (Z.pow_le_mono_r_iff 2); [lia | lia |]. now rewrite <- Hpb. }
  assert (2 ^ k = 2 ^ (k - j) * ptr_bytes) as Hka.
  { rewrite Hpb, <- Z.pow_add_r by lia. f_equal. lia. }
  assert (0 < 2 ^ (k - j)) as Hmpos by (apply Z.pow_pos_nonneg; lia).
  pose proof (Z.mod_pos_bound ptr (2 ^ k) Hkpos) as Hr.
  pose proof (Z.div_mod ptr (2 ^ k) ltac:(lia)) as Hdm.
  rewrite Hka in *.
  apply (headroom_arith _ _ c (ptr / (2 ^ (k - j) * ptr_bytes))); lia.
Qed.

(** C2 (as amended).  In the portable fallback, let the plain allocation of
    [size + alignment] bytes succeed with raw pointer [ptr], the sum not
    wrapping and the block lying inside the address space.  Then
    [nx_aligned_malloc] returns the first multiple of [alignment] strictly
    above [ptr] (so [ptr + alignment] when [ptr] is itself a multiple), and
    the [size] bytes from the result on lie inside
    [[ptr, ptr + size + alignment)].  When moreover [alignment] is at least
    the size of a pointer and [ptr] is pointer-aligned, the pointer-sized
    word just before the result lies inside that region too. *)
Theorem nx_aligned_malloc_placement size align w ptr :
  is_pow2 align ->
  0 <= size -> size + align < size_modulus ->
  malloc_fn (trace w) (wrap (size + align)) = ptr ->
  0 < ptr -> ptr + (size + align) < size_modulus ->
  let q := fst (detail.nx_aligned_malloc size align w) in
  first_multiple_above align ptr q /\
  within_block ptr (size + align) q size /\
  (ptr_bytes <= align -> (ptr_bytes | ptr) ->
   within_block ptr (size + align) (q - ptr_bytes) ptr_bytes).
Proof.
  intros Ha Hsize Hsum Hm Hpos Hend q.
  pose proof (is_pow2_pos _ Ha) as Hapos.
  assert (q = ptr - ptr mod align + align) as ->.
  { unfold q. pose proof (nx_aligned_malloc_nonnull size align w) as Hnn.
    cbn zeta in Hnn. rewrite Hm in Hnn. rewrite Hnn by lia. cbn [fst].
    apply aligned_address_eq; [assumption | lia | lia]. }
  pose proof (Z.mod_pos_bound ptr align Hapos).
  split; [now apply first_multiple_above_step |].
  split; [unfold within_block; lia |].
  intros Hpa Hal.
  pose proof (headroom_for_back_pointer ptr align Ha Hpa Hal).
  unfold within_block. lia.
Qed.

(** The result is not null when the raw block lies inside the address
    space. *)
Lemma nx_aligned_malloc_result_nonnull size align w ptr :
  is_pow2 align ->
  0 <= size -> size + align < size_modulus ->
  malloc_fn (trace w) (wrap (size + align)) = ptr ->
  block_ok ptr (size + align) ptr_bytes ->
  fst (detail.nx_aligned_malloc size align w) <> 0.
Proof.
  intros Ha Hsize Hsum Hm (Hpos & Hend & Hal).
  pose proof (is_pow2_pos _ Ha) as Hapos.
  pose proof (nx_aligned_malloc_nonnull size align w) as Hnn.
  cbn zeta in Hnn. rewrite Hm in Hnn. rewrite Hnn by lia. cbn [fst].
  rewrite aligned_address_eq by (assumption || lia).
  pose proof (Z.mod_pos_bound ptr align Hapos). lia.
Qed.

(** C5.  Whenever [nx_aligned_malloc] returns a pointer [q] after a
    successful plain allocation with raw pointer [ptr], the word just before
    [q] holds [ptr], and [nx_aligned_free q] makes exactly one call,
    [free(ptr)]. *)
Theorem nx_aligned_roundtrip size align w q w1 :
  malloc_fn (trace w) (wrap (size + align)) <> 0 ->
  detail.nx_aligned_malloc size align w = (q, w1) ->
  q <> 0 ->
  let ptr := malloc_fn (trace w) (wrap (size + align)) in
  load_word w1 (wrap (q - ptr_bytes)) = ptr /\
  detail.nx_aligned_free q w1 = (tt, log_event (EvFree ptr) w1).
Proof.
  intros Hm Hrun Hq ptr.
  rewrite nx_aligned_malloc_nonnull in Hrun by assumption.
  injection Hrun as <- <-. fold ptr.
  set (res := wrap (Z.land ptr (size_not (wrap (align - 1))) + align)) in *.
  split; [apply load_store_same |].
  unfold detail.nx_aligned_free, bind, load_ptr, free.
  destruct (Z.eqb_spec res 0); [contradiction |]. cbn [negb].
  now rewrite load_store_same.
Qed.

(** C9.  In the build that selects the fallback, [aligned_free] is
    [nx_aligned_free].  On the null pointer it leaves the world as it is: no
    call, no store.  On any other pointer it loads the word just before it
    and calls [free] on the value found. *)
Theorem nx_aligned_free_cases p w :
  aligned_free fallback_build p w = detail.nx_aligned_free p w /\
  detail.nx_aligned_free 0 w = (tt, w) /\
  (p <> 0 ->
   detail.nx_aligned_free p w
   = (tt, log_event (EvFree (load_word w (wrap (p - ptr_bytes)))) w)).
Proof.
  repeat split.
  intros Hp. unfold detail.nx_aligned_free, bind, load_ptr, free.
  destruct (Z.eqb_spec p 0); [contradiction | reflexivity].
Qed.

End Fallback.

(** *** The fallback on the bump allocator *)

Lemma nx_aligned_malloc_placement_witness :
  let q := fst (detail.nx_aligned_malloc (P := lp64) (L := bump_libc) 8 16 w0) in
  first_multiple_above 16 4112 q /\
  within_block 4112 (8 + 16) q 8 /\
  within_block 4112 (8 + 16) (q - 8) 8.
Proof.
  destruct (nx_aligned_malloc_placement (P := lp64) (HP := lp64_ok)
              (L := bump_libc) 8 16 w0 4112) as (Hfirst & Huser & Hword).
  - exact is_pow2_16.
  - lia.
  - reflexivity.
  - reflexivity.
  - lia.
  - reflexivity.
  - split; [exact Hfirst |]. split; [exact Huser |].
    apply Hword.
    + vm_compute. discriminate.
    + exists 514. reflexivity.
Defined.

(** With an alignment of 4, below the size of a pointer, the first two
    parts still hold: 4116 is the first multiple of 4 above 4112 and the
    eight bytes from it lie inside the block of twelve. *)
Example nx_aligned_malloc_small_alignment :
  let q := fst (detail.nx_aligned_malloc (P := lp64) (L := bump_libc) 8 4 w0) in
  q = 4116 /\ within_block 4112 (8 + 4) q 8.
Proof. split; [reflexivity |]. split; vm_compute; discriminate. Qed.

(** C2, as stated, fails in two ways.  The bump allocator answers
    [malloc(8 + 16)] with 4112, a multiple of 16; the fallback returns 4128,
    although 4112 is a multiple of 16 that is at least [ptr].  With an
    alignment of 4, below the size of a pointer, the result is 4116 and the
    word before it starts at 4108, below the block. *)
Lemma nx_aligned_malloc_not_first_multiple_from :
  (let ptr := malloc_fn (Libc := bump_libc) (trace w0) (wrap (8 + 16)) in
   let q := fst (detail.nx_aligned_malloc (L := bump_libc) 8 16 w0) in
   ptr = 4112 /\ q = 4128 /\ ~ first_multiple_from 16 ptr q) /\
  (let ptr := malloc_fn (Libc := bump_libc) (trace w0) (wrap (8 + 4)) in
   let q := fst (detail.nx_aligned_malloc (L := bump_libc) 8 4 w0) in
   ptr = 4112 /\ q = 4116 /\ ~ within_block ptr (8 + 4) (q - ptr_bytes) ptr_bytes).
Proof.
  split; cbv zeta.
  - split; [reflexivity |]. split; [reflexivity |].
    intros (_ & _ & Hleast).
    specialize (Hleast 4112).
    assert (4128 <= 4112) as Habs.
    { apply Hleast; [reflexivity | exists 257; reflexivity]. }
    revert Habs. vm_compute. intros Habs. now apply Habs.
  - split; [reflexivity |]. split; [reflexivity |].
    intros [Hlo _]. revert Hlo. vm_compute. intros Hlo. now apply Hlo.
Qed.

Lemma nx_aligned_roundtrip_witness :
  let w1 := snd (detail.nx_aligned_malloc (L := bump_libc) 8 16 w0) in
  load_word w1 (wrap (4128 - ptr_bytes)) = 4112 /\
  detail.nx_aligned_free 4128 w1 = (tt, log_event (EvFree 4112) w1).
Proof.
  intros w1.
  apply (nx_aligned_roundtrip (P := lp64) (L := bump_libc) 8 16 w0 4128 w1).
  - vm_compute. discriminate.
  - reflexivity.
  - discriminate.
Defined.

Lemma nx_aligned_free_cases_witness :
  let w1 := snd (detail.nx_aligned_malloc (L := bump_libc) 8 16 w0) in
  detail.nx_aligned_free 4128 w1 = (tt, log_event (EvFree 4112) w1).
Proof.
  intros w1.
  apply (nx_aligned_free_cases (P := lp64) 4128 w1). discriminate.
Defined.

(** ** Strategy selection and the allocator *)

Section Allocator.
Context {P : Platform} {HP : PlatformOk P} {L : Libc}.

(** A power of two below the modulus divides it, so divisibility by it
    survives wrap-around. *)
Lemma wrap_divide a x :
  is_pow2 a -> a < size_modulus -> (a | x) -> (a | wrap x).
Proof.
  intros (k & Hk & ->) Hfit Hx. unfold wrap.
  pose proof size_bits_pos as Hw.
  assert (k < size_bits) as Hkw.
  { apply (Z.pow_lt_mono_r_iff 2); [lia | lia | exact Hfit]. }
  assert (2 ^ k | size_modulus) as Hdiv.
  { exists (2 ^ (size_bits - k)). unfold size_modulus.
    rewrite <- Z.pow_add_r by lia. f_equal. lia. }
  pose proof size_modulus_pos.
  rewrite Z.mod_eq by lia.
  apply Z.divide_sub_r; [assumption |].
  now apply Z.divide_mul_l.
Qed.

(** The fallback returns null or a multiple of the alignment. *)
Lemma nx_aligned_malloc_aligned size align w :
  LibcOk P L -> is_pow2 align -> align < size_modulus ->
  let q := fst (detail.nx_aligned_malloc size align w) in
  q = 0 \/ (align | q).
Proof.
  intros HL Ha Hfit q. unfold q.
  pose proof (is_pow2_pos _ Ha) as Hapos.
  destruct (Z.eq_dec (malloc_fn (trace w) (wrap (size + align))) 0) as [Hz | Hnz].
  - left. now rewrite nx_aligned_malloc_null.
  - right. rewrite nx_aligned_malloc_nonnull by assumption. cbn [fst].
    destruct (malloc_ok (LibcOk := HL) (trace w) (wrap (size + align)))
      as [Hz | (Hpos & Hend & _)]; [apply wrap_range | contradiction |].
    pose proof (wrap_range (size + align)).
    destruct Ha as (k & Hk & ->).
    rewrite (wrap_small (2 ^ k - 1)) by lia.
    rewrite land_not_mask by lia.
    apply wrap_divide; [now exists k | assumption |].
    now apply round_down_step_divide.
Qed.

(** Every branch but the POSIX one returns null or a multiple of the
    alignment; the first branch does so when plain [malloc] is aligned
    enough, which is what its macro asserts. *)
Lemma aligned_malloc_aligned cfg size align w :
  LibcOk P L -> is_pow2 align -> align < size_modulus -> 0 <= size ->
  (NX_MALLOC_ALREADY_ALIGNED cfg = true -> forall tr n, (align | malloc_fn tr n)) ->
  NX_MALLOC_ALREADY_ALIGNED cfg || NX_HAS_MM_MALLOC cfg
    || negb (NX_HAS_POSIX_MEMALIGN cfg) = true ->
  let q := fst (aligned_malloc cfg size align w) in
  q = 0 \/ (align | q).
Proof.
  intros HL Ha Hfit Hsize Hpre Hsel q. unfold q, aligned_malloc.
  destruct (NX_MALLOC_ALREADY_ALIGNED cfg).
  { right. apply Hpre. reflexivity. }
  destruct (NX_HAS_MM_MALLOC cfg).
  { cbn. destruct (mm_malloc_ok (LibcOk := HL) (trace w) size align Hsize Ha)
      as [-> | (_ & _ & Hd)]; [now left | now right]. }
  destruct (NX_HAS_POSIX_MEMALIGN cfg); [discriminate |].
  destruct (MSC_VER cfg).
  { cbn. destruct (crt_aligned_malloc_ok (LibcOk := HL) (trace w) size align Hsize Ha)
      as [-> | (_ & _ & Hd)]; [now left | now right]. }
  now apply nx_aligned_malloc_aligned.
Qed.

(** [allocate] is one call of [aligned_malloc] on the wrapped byte count,
    followed by the null test. *)
Lemma allocate_unfold cfg self n hint w :
  let r := aligned_malloc cfg (wrap (sizeof_T self * n)) (alignment self) w in
  allocate cfg self n hint w
  = (if fst r =? 0 then Thrown bad_alloc else Returned (fst r), snd r).
Proof.
  intros r. unfold allocate, bind. fold r.
  destruct r as [res w1]. cbn [fst snd].
  destruct (res =? 0); reflexivity.
Qed.

(** Each strategy makes exactly one call into the C library. *)
Lemma aligned_malloc_one_call cfg size align w :
  exists e, trace (snd (aligned_malloc cfg size align w)) = e :: trace w.
Proof.
  unfold aligned_malloc.
  destruct (NX_MALLOC_ALREADY_ALIGNED cfg); [eexists; reflexivity |].
  destruct (NX_HAS_MM_MALLOC cfg); [eexists; reflexivity |].
  destruct (NX_HAS_POSIX_MEMALIGN cfg); [eexists; reflexivity |].
  destruct (MSC_VER cfg); [eexists; reflexivity |].
  destruct (Z.eq_dec (malloc_fn (trace w) (wrap (size + align))) 0) as [Hz | Hnz].
  - rewrite nx_aligned_malloc_null by assumption. eexists; reflexivity.
  - rewrite nx_aligned_malloc_nonnull by assumption. eexists; reflexivity.
Qed.

(** C6.  When plain [malloc] fails, [nx_aligned_malloc] returns null after
    that single call and stores nothing.  In every build [allocate] throws
    [bad_alloc] exactly when [aligned_malloc] returned null, and it leaves
    the world as that one call of [aligned_malloc] left it, which made one
    call into the C library: nothing is tried again. *)
Theorem allocation_failure_propagates cfg self n hint size align w :
  (malloc_fn (trace w) (wrap (size + align)) = 0 ->
   detail.nx_aligned_malloc size align w
   = (0, log_event (EvMalloc (wrap (size + align)) 0) w)) /\
  (fst (allocate cfg self n hint w) = Thrown bad_alloc <->
   fst (aligned_malloc cfg (wrap (sizeof_T self * n)) (alignment self) w) = 0) /\
  snd (allocate cfg self n hint w)
  = snd (aligned_malloc cfg (wrap (sizeof_T self * n)) (alignment self) w) /\
  (exists e, trace (snd (allocate cfg self n hint w)) = e :: trace w).
Proof.
  split; [apply nx_aligned_malloc_null |].
  pose proof (allocate_unfold cfg self n hint w) as Hun. cbv zeta in Hun.
  rewrite Hun. cbn [fst snd].
  split; [| split; [reflexivity | apply aligned_malloc_one_call]].
  destruct (Z.eqb_spec
              (fst (aligned_malloc cfg (wrap (sizeof_T self * n)) (alignment self) w)) 0).
  - tauto.
  - split; [discriminate | contradiction].
Qed.

(** C10.  For an element of at least two bytes there are counts above
    [size_max()]; for each of them the byte count that [allocate] passes on,
    [sizeof(T) * n] modulo [2 ^ size_bits], is strictly below the product,
    and [allocate] tests nothing but the result of [aligned_malloc] on that
    smaller count: a non-null result is returned as it is. *)
Theorem allocate_byte_count_wraps self :
  2 <= sizeof_T self < size_modulus ->
  (exists n, size_max self < n < size_modulus) /\
  (forall n, size_max self < n < size_modulus ->
     wrap (sizeof_T self * n) < sizeof_T self * n /\
     forall cfg hint w,
       let r := aligned_malloc cfg (wrap (sizeof_T self * n)) (alignment self) w in
       snd (allocate cfg self n hint w) = snd r /\
       (fst r <> 0 -> fst (allocate cfg self n hint w) = Returned (fst r))).
Proof.
  intros [Hlo Hhi]. unfold size_max. rewrite wrap_ones.
  pose proof size_modulus_pos as HM.
  set (s := sizeof_T self) in *.
  pose proof (Z.div_mod (size_modulus - 1) s ltac:(lia)) as Hdm.
  pose proof (Z.mod_pos_bound (size_modulus - 1) s ltac:(lia)) as Hmod.
  split.
  - exists ((size_modulus - 1) / s + 1). split; [lia |].
    assert ((size_modulus - 1) / s < size_modulus - 1); [| lia].
    apply Z.div_lt_upper_bound; nia.
  - intros n [Hn Hn']. split.
    + pose proof (wrap_range (s * n)). nia.
    + intros cfg hint w.
      pose proof (allocate_unfold cfg self n hint w) as Hun. cbv zeta in Hun.
      fold s in Hun. rewrite Hun. cbn [fst snd]. split; [reflexivity |].
      intros Hr.
      destruct (Z.eqb_spec
                  (fst (aligned_malloc cfg (wrap (s * n)) (alignment self) w)) 0);
        [contradiction | reflexivity].
Qed.

End Allocator.

(** C8.  Two allocators, whatever their element types, compare equal with
    [operator==] exactly when their [Align] values are the same, and
    [operator!=] is the negation; with different [Align] they are unequal. *)
Theorem allocator_equality (lhs rhs : aligned_allocator) :
  (op_eq lhs rhs = true <-> alignment lhs = alignment rhs) /\
  op_ne lhs rhs = negb (op_eq lhs rhs) /\
  (alignment lhs <> alignment rhs -> op_eq lhs rhs = false /\ op_ne lhs rhs = true).
Proof.
  unfold op_ne, op_eq.
  destruct (Z.eqb_spec (alignment lhs) (alignment rhs)) as [He | Hne].
  - split; [tauto |]. split; [reflexivity |]. intros Hne. contradiction.
  - split; [split; [discriminate | contradiction] |].
    split; [reflexivity |]. intros _. split; reflexivity.
Qed.

Lemma allocator_equality_witness :
  op_eq (Allocator 4 16) (Allocator 8 32) = false /\
  op_ne (Allocator 4 16) (Allocator 8 32) = true.
Proof.
  apply (allocator_equality (Allocator 4 16) (Allocator 8 32)).
  vm_compute. discriminate.
Defined.

(** Rebinding keeps [Align]: a [float] and a [double] allocator on the same
    boundary are equal. *)
Example allocator_equality_rebind :
  op_eq (Allocator 4 32) (Allocator 8 32) = true.
Proof. reflexivity. Qed.

(** ** The bump allocator honours the contract of the C library *)

Lemma brk_ge_base tr : heap_base <= brk tr.
Proof.
  induction tr as [| e tr IH]; cbn; [reflexivity |].
  fold (brk tr). lia.
Qed.

Lemma round_up_ge x a : 0 < a -> x <= round_up x a.
Proof.
  intros Ha. unfold round_up.
  pose proof (Z.div_mod (x + a - 1) a ltac:(lia)).
  pose proof (Z.mod_pos_bound (x + a - 1) a Ha). nia.
Qed.

Lemma round_up_divide x a : (a | round_up x a).
Proof. unfold round_up. apply Z.divide_factor_r. Qed.

Lemma bump_block tr n a :
  0 < a ->
  bump tr n a = 0 \/
  (0 < bump tr n a /\ bump tr n a + n < heap_limit /\ (a | bump tr n a)).
Proof.
  intros Ha. unfold bump.
  destruct (Z.ltb_spec (round_up (brk tr + chunk_header) a + n) heap_limit);
    [right | now left].
  pose proof (brk_ge_base tr). pose proof (round_up_ge (brk tr + chunk_header) a Ha).
  unfold heap_base, chunk_header in *.
  repeat split; [lia | assumption | apply round_up_divide].
Qed.

Lemma posix_alignment_ok_pos {P : Platform} a : posix_alignment_ok a = true -> 0 < a.
Proof.
  unfold posix_alignment_ok, is_pow2b. intros Hok.
  apply andb_prop in Hok as [Hok _]. apply andb_prop in Hok as [Hok _].
  now apply Z.ltb_lt.
Qed.

Lemma bump_libc_ok : LibcOk lp64 bump_libc.
Proof.
  assert (heap_limit < size_modulus) as Hlim by reflexivity.
  split; cbn [malloc_fn mm_malloc_fn posix_memalign_fn crt_aligned_malloc_fn bump_libc].
  - intros tr n Hn.
    destruct (bump_block tr n 16 ltac:(lia)) as [Hz | (Hpos & Hend & Hd)];
      [now left | right].
    repeat split; [assumption | lia |].
    apply Z.divide_trans with 16; [exists 2; reflexivity | assumption].
  - intros tr n a Hn Ha.
    destruct (bump_block tr n a (is_pow2_pos _ Ha)) as [Hz | (Hpos & Hend & Hd)];
      [now left | right].
    repeat split; [assumption | lia | assumption].
  - intros tr a n Hn.
    destruct (posix_alignment_ok a) eqn:Hok.
    + split; [discriminate |].
      destruct (bump_block tr n a (posix_alignment_ok_pos a Hok))
        as [Hz | (Hpos & Hend & Hd)].
      * rewrite Hz. cbn. discriminate.
      * destruct (Z.eqb_spec (bump tr n a) 0) as [Hz | _]; [lia |].
        cbn [fst snd]. intros _. split; [reflexivity |].
        repeat split; [assumption | lia | assumption].
    + split; [reflexivity | cbn; discriminate].
  - intros tr n a Hn Ha.
    destruct (bump_block tr n a (is_pow2_pos _ Ha)) as [Hz | (Hpos & Hend & Hd)];
      [now left | right].
    repeat split; [assumption | lia | assumption].
Qed.

(** ** The POSIX branch *)

Section PosixBranch.
Context {P : Platform} {L : Libc}.

(** What the third branch obtains from a C library that honours POSIX: a
    block of [alignment] bytes on a boundary of [size], and null whenever
    [size] is not a power of two multiple of the size of a pointer. *)
Lemma aligned_malloc_posix_swapped cfg size align w :
  LibcOk P L -> 0 <= align ->
  NX_MALLOC_ALREADY_ALIGNED cfg = false -> NX_HAS_MM_MALLOC cfg = false ->
  NX_HAS_POSIX_MEMALIGN cfg = true ->
  let q := fst (aligned_malloc cfg size align w) in
  (posix_alignment_ok size = false -> q = 0) /\
  (q <> 0 -> block_ok q align size).
Proof.
  intros HL Hal H1 H2 H3 q. unfold q, aligned_malloc.
  rewrite H1, H2, H3. unfold bind, posix_memalign, ret. cbn [fst snd].
  destruct (posix_memalign_ok (LibcOk := HL) (trace w) size align Hal) as [Hinv Hok].
  destruct (Z.eqb_spec (fst (posix_memalign_fn (trace w) size align)) 0) as [He | Hne];
    cbn [negb].
  - split.
    + intros Hbad. apply Hinv in Hbad. rewrite He in Hbad. discriminate.
    + intros _. now apply Hok.
  - split; [reflexivity | contradiction].
Qed.

End PosixBranch.

(** C1.  The claim asks for a multiple of [Align] from every branch.  In the
    build that selects [posix_memalign], [allocate(1)] for eight-byte
    elements on a 16-byte boundary calls
    [posix_memalign(&res, 8, 16)]: sixteen bytes on a boundary of eight.  On
    the bump allocator, which honours POSIX, the pointer returned is 4104,
    not a multiple of 16. *)
Theorem allocate_posix_branch_misaligned :
  let r := allocate (P := lp64) (L := bump_libc) posix_build (Allocator 8 16) 1 0 w0 in
  is_pow2 16 /\
  trace (snd r) = [EvPosixMemalign 8 16 0 4104] /\
  fst r = Returned 4104 /\
  ~ (16 | 4104).
Proof.
  cbv zeta. split; [exact is_pow2_16 |].
  split; [reflexivity |]. split; [reflexivity |].
  intros [c Hc]. lia.
Qed.

(** In the same build a count of seven four-byte elements is refused with
    [EINVAL], 28 not being a power of two, and [allocate] throws although
    the heap is empty. *)
Example allocate_posix_branch_einval :
  allocate (P := lp64) (L := bump_libc) posix_build (Allocator 4 16) 7 0 w0
  = (Thrown bad_alloc, World ∅ [EvPosixMemalign 28 16 EINVAL 0]).
Proof. reflexivity. Qed.

(** The first branch hands the request to plain [malloc] and does not look
    at the alignment: the result is as aligned as [malloc] makes it. *)
Lemma aligned_malloc_already_aligned {P : Platform} {L : Libc} cfg size align w :
  NX_MALLOC_ALREADY_ALIGNED cfg = true ->
  aligned_malloc cfg size align w = malloc size w.
Proof. intros Hsel. unfold aligned_malloc. now rewrite Hsel. Qed.

Example aligned_malloc_trusts_malloc :
  fst (aligned_malloc (P := lp64) (L := bump_libc) glibc_build 8 64 w0) = 4112 /\
  4112 mod 16 = 0 /\ 4112 mod 64 = 16.
Proof. repeat split. Qed.

(** The same requests in the build that selects the fallback. *)
Example allocate_fallback_aligned :
  fst (allocate (P := lp64) (L := bump_libc) fallback_build (Allocator 8 16) 1 0 w0)
  = Returned 4128 /\ (16 | 4128).
Proof. split; [reflexivity | exists 258; reflexivity]. Qed.

(** [deallocate] after [allocate] releases the raw block of the fallback. *)
Example deallocate_after_allocate :
  let w1 := snd (allocate (P := lp64) (L := bump_libc) fallback_build
                   (Allocator 8 16) 1 0 w0) in
  trace (snd (deallocate fallback_build (Allocator 8 16) 4128 1 w1))
  = [EvFree 4112; EvMalloc (8 + 16) 4112].
Proof. reflexivity. Qed.

Lemma allocation_failure_propagates_witness :
  detail.nx_aligned_malloc (P := lp64) (L := bump_libc) 1048576 16 w0
  = (0, log_event (EvMalloc 1048592 0) w0).
Proof.
  apply (allocation_failure_propagates (P := lp64) (L := bump_libc)
           fallback_build (Allocator 4 16) 262144 0 1048576 16 w0).
  reflexivity.
Defined.

(** The failure surfaces as one exception after one call of [malloc]. *)
Example allocate_out_of_memory :
  allocate (P := lp64) (L := bump_libc) fallback_build (Allocator 4 16) 262144 0 w0
  = (Thrown bad_alloc, World ∅ [EvMalloc 1048592 0]).
Proof. reflexivity. Qed.

Lemma allocate_byte_count_wraps_witness :
  wrap (4 * (2 ^ 62 + 1)) < 4 * (2 ^ 62 + 1) /\
  fst (allocate (P := lp64) (L := bump_libc) fallback_build (Allocator 4 16)
         (2 ^ 62 + 1) 0 w0) = Returned 4128.
Proof.
  destruct (allocate_byte_count_wraps (P := lp64) (HP := lp64_ok) (L := bump_libc)
              (Allocator 4 16)) as [_ Hall].
  - vm_compute. split; [discriminate | reflexivity].
  - destruct (Hall (2 ^ 62 + 1)) as [Hlt Hrun].
    + vm_compute. split; reflexivity.
    + split; [exact Hlt |].
      destruct (Hrun fallback_build 0 w0) as [_ Hret].
      apply Hret. vm_compute. discriminate.
Defined.

(** Four bytes were asked for where [4 * (2 ^ 62 + 1)] were meant. *)
Example allocate_wrapped_request :
  trace (snd (allocate (P := lp64) (L := bump_libc) fallback_build (Allocator 4 16)
                (2 ^ 62 + 1) 0 w0))
  = [EvMalloc (4 + 16) 4112].
Proof. reflexivity. Qed.

(** * Further properties *)

(** ** Where the vector body starts *)

Lemma block_aligned_index szT block_size p i :
  0 < szT -> p mod szT = 0 ->
  block_aligned szT block_size p i <-> (block_size | p / szT + i).
Proof.
  intros Hsz Hp. unfold block_aligned.
  pose proof (Z.div_mod p szT ltac:(lia)) as Hdm. rewrite Hp in Hdm.
  replace (p + szT * i) with (szT * (p / szT + i)) by lia.
  apply Z.mul_divide_cancel_l. lia.
Qed.

Lemma block_aligned_scalar szT block_size p i :
  block_aligned szT block_size p i -> 0 < szT -> p mod szT = 0.
Proof.
  intros [c Hc] Hsz.
  apply Z.mod_divide; [lia |].
  exists (c * block_size - i). lia.
Qed.

(** The distance from an index to the next multiple of the block size. *)
Lemma next_block_offset idx block_size :
  0 < block_size ->
  let u := (block_size - idx mod block_size) mod block_size in
  0 <= u < block_size /\
  (block_size | idx + u) /\
  forall i, 0 <= i < u -> ~ (block_size | idx + i).
Proof.
  intros Hbs u.
  pose proof (Z.mod_pos_bound idx block_size Hbs) as Hm.
  pose proof (Z.div_mod idx block_size ltac:(lia)) as Hdm.
  destruct (Z.eq_dec (idx mod block_size) 0) as [Hz | Hnz].
  - assert (u = 0) as ->.
    { unfold u. rewrite Hz, Z.sub_0_r. apply Z.mod_same. lia. }
    split; [lia |]. split; [| intros i Hi; lia].
    exists (idx / block_size). lia.
  - assert (u = block_size - idx mod block_size) as ->.
    { unfold u. apply Z.mod_small. lia. }
    split; [lia |]. split.
    + exists (idx / block_size + 1). lia.
    + intros i Hi [c Hc].
      assert (block_size * (c - idx / block_size) = idx mod block_size + i) as Hk by lia.
      assert (0 < c - idx / block_size) by nia.
      nia.
Qed.

Section VectorBody.
Context {P : Platform}.

(** The two cases of [get_alignment_offset] for sizes that are powers of
    two and a block of more than one element. *)
Lemma get_alignment_offset_cases szT p size block_size :
  is_pow2 szT -> szT < size_modulus ->
  is_pow2 block_size -> 1 < block_size < size_modulus ->
  (p mod szT <> 0 /\ get_alignment_offset szT p size block_size = size) \/
  (p mod szT = 0 /\
   get_alignment_offset szT p size block_size
   = Z.min ((block_size - (p / szT) mod block_size) mod block_size) size).
Proof.
  intros Hsz Hfit Hbp [Hbs Hbfit]. unfold get_alignment_offset.
  destruct (Z.eqb_spec block_size 1) as [-> | _]; [lia |].
  rewrite scalar_mask_test by assumption.
  destruct (Z.eqb_spec (p mod szT) 0) as [Hp | Hp]; cbn [negb].
  - right. split; [assumption |]. now rewrite block_mask_arith.
  - left. now split.
Qed.

(** None of the elements before the returned offset starts on a block
    boundary; the element at the offset does, whenever the offset is below
    [size]. *)
Theorem get_alignment_offset_prologue szT p size block_size :
  is_pow2 szT -> szT < size_modulus ->
  is_pow2 block_size -> 1 < block_size < size_modulus ->
  let r := get_alignment_offset szT p size block_size in
  (forall i, 0 <= i < r -> ~ block_aligned szT block_size p i) /\
  (r < size -> block_aligned szT block_size p r).
Proof.
  intros Hsz Hfit Hbp Hbs r. unfold r.
  pose proof (is_pow2_pos _ Hsz) as Hszpos.
  destruct (get_alignment_offset_cases szT p size block_size Hsz Hfit Hbp Hbs)
    as [[Hp ->] | [Hp ->]].
  - split; [| lia].
    intros i _ Hal. apply Hp. now apply (block_aligned_scalar _ _ _ _ Hal).
  - destruct (next_block_offset (p / szT) block_size ltac:(lia)) as (Hu & Hat & Hmin).
    split.
    + intros i Hi Hal. apply (Hmin i); [lia |].
      now apply block_aligned_index.
    + intros Hlt. rewrite Z.min_l by lia.
      now apply block_aligned_index.
Qed.

(** On a non-empty array the offset is zero exactly when the array itself
    starts on a block boundary. *)
Theorem get_alignment_offset_zero_iff szT p size block_size :
  is_pow2 szT -> szT < size_modulus ->
  is_pow2 block_size -> 1 < block_size < size_modulus ->
  0 < size ->
  get_alignment_offset szT p size block_size = 0 <->
  block_aligned szT block_size p 0.
Proof.
  intros Hsz Hfit Hbp Hbs Hsize.
  pose proof (is_pow2_pos _ Hsz) as Hszpos.
  destruct (get_alignment_offset_cases szT p size block_size Hsz Hfit Hbp Hbs)
    as [[Hp ->] | [Hp ->]].
  - split; [lia |].
    intros Hal. exfalso. apply Hp. now apply (block_aligned_scalar _ _ _ _ Hal).
  - destruct (next_block_offset (p / szT) block_size ltac:(lia)) as (Hu & Hat & Hmin).
    rewrite block_aligned_index by assumption.
    split.
    + intros Hz.
      assert ((block_size - (p / szT) mod block_size) mod block_size = 0) as Hu0 by lia.
      now rewrite Hu0 in Hat.
    + intros Hal.
      destruct (Z.eq_dec ((block_size - (p / szT) mod block_size) mod block_size) 0)
        as [-> | Hnz]; [lia |].
      exfalso. apply (Hmin 0); [lia | assumption].
Qed.

(** For a pointer aligned on its element size, the scalar prologue is
    shorter than one block. *)
Theorem get_alignment_offset_below_block szT p size block_size :
  is_pow2 szT -> szT < size_modulus ->
  is_pow2 block_size -> 1 < block_size < size_modulus ->
  p mod szT = 0 ->
  get_alignment_offset szT p size block_size < block_size.
Proof.
  intros Hsz Hfit Hbp Hbs Hp.
  destruct (get_alignment_offset_cases szT p size block_size Hsz Hfit Hbp Hbs)
    as [[Hnp _] | [_ ->]]; [contradiction |].
  pose proof (Z.mod_pos_bound (block_size - (p / szT) mod block_size) block_size
                ltac:(lia)).
  lia.
Qed.

End VectorBody.

Lemma get_alignment_offset_prologue_witness :
  let r := get_alignment_offset (P := lp64) 4 1028 100 4 in
  (forall i, 0 <= i < r -> ~ block_aligned 4 4 1028 i) /\
  (r < 100 -> block_aligned 4 4 1028 r).
Proof.
  apply (get_alignment_offset_prologue (P := lp64) 4 1028 100 4).
  - exact is_pow2_4.
  - reflexivity.
  - exact is_pow2_4.
  - split; reflexivity.
Defined.

Lemma get_alignment_offset_zero_iff_witness :
  get_alignment_offset (P := lp64) 4 1040 100 4 = 0 <-> block_aligned 4 4 1040 0.
Proof.
  apply (get_alignment_offset_zero_iff (P := lp64) 4 1040 100 4).
  - exact is_pow2_4.
  - reflexivity.
  - exact is_pow2_4.
  - split; reflexivity.
  - lia.
Defined.

Lemma get_alignment_offset_below_block_witness :
  get_alignment_offset (P := lp64) 4 1028 100 4 < 4.
Proof.
  apply (get_alignment_offset_below_block (P := lp64) 4 1028 100 4).
  - exact is_pow2_4.
  - reflexivity.
  - exact is_pow2_4.
  - split; reflexivity.
  - reflexivity.
Defined.

(** ** Allocation and release together *)

Section RoundTrip.
Context {P : Platform} {HP : PlatformOk P} {L : Libc}.

(** The success path of the fallback in closed form, on a block that lies
    inside the address space. *)
Lemma nx_aligned_malloc_success size align w :
  is_pow2 align -> ptr_bytes <= align ->
  0 <= size -> size + align < size_modulus ->
  let ptr := malloc_fn (trace w) (size + align) in
  let q := ptr - ptr mod align + align in
  block_ok ptr (size + align) ptr_bytes ->
  detail.nx_aligned_malloc size align w
  = (q, store_word (q - ptr_bytes) ptr (log_event (EvMalloc (size + align) ptr) w))
  /\ ptr + ptr_bytes <= q <= ptr + align /\ (align | q).
Proof.
  intros Ha Hpa Hsize Hsum ptr q (Hpos & Hend & Hal).
  pose proof (is_pow2_pos _ Ha) as Hapos.
  pose proof (Z.mod_pos_bound ptr align Hapos) as Hmod.
  pose proof (headroom_for_back_pointer ptr align Ha Hpa Hal) as Hroom.
  pose proof (is_pow2_pos _ ptr_bytes_pow2) as Hpb.
  pose proof (nx_aligned_malloc_nonnull size align w) as Hrun. cbv zeta in Hrun.
  rewrite (wrap_small (size + align)) in Hrun by lia. fold ptr in Hrun.
  rewrite Hrun by lia.
  rewrite aligned_address_eq by (assumption || lia). fold q.
  rewrite (wrap_small (q - ptr_bytes)) by (unfold q; lia).
  split; [reflexivity |]. split; [unfold q; lia |].
  now apply round_down_step_divide.
Qed.

(** For a power-of-two alignment of at least the size of a pointer and a C
    library that honours its contract, the one word that [nx_aligned_malloc]
    may write, the word just before its result, lies inside the address
    space without wrapping around its end, and every pointer-sized word
    that shares no byte with it reads as before the call. *)
Theorem nx_aligned_malloc_frame size align w addr :
  LibcOk P L ->
  is_pow2 align -> align < size_modulus -> ptr_bytes <= align ->
  let r := detail.nx_aligned_malloc size align w in
  let a := wrap (fst r - ptr_bytes) in
  (0 <= a /\ a + ptr_bytes <= size_modulus) /\
  (disjoint_ranges addr ptr_bytes a ptr_bytes ->
   load_word (snd r) addr = load_word w addr).
Proof.
  intros HL Ha Hfit Hpa r a.
  pose proof (is_pow2_pos _ Ha) as Hapos.
  pose proof (is_pow2_pos _ ptr_bytes_pow2) as Hpb.
  pose proof (ptr_bytes_fits (P := P)) as Hpbfit.
  pose proof size_modulus_pos as HM.
  assert (wrap (0 - ptr_bytes) = size_modulus - ptr_bytes) as Hnull.
  { unfold wrap. symmetry. apply Z.mod_unique_pos with (q := -1); lia. }
  unfold a, r. clear a r.
  destruct (Z.eq_dec (malloc_fn (trace w) (wrap (size + align))) 0) as [Hz | Hnz].
  - rewrite nx_aligned_malloc_null by assumption. cbn [fst snd].
    rewrite Hnull. split; [lia |]. intros _. apply load_log_event.
  - rewrite nx_aligned_malloc_nonnull by assumption. cbn [fst snd].
    set (ptr := malloc_fn (trace w) (wrap (size + align))) in *.
    set (q := wrap (Z.land ptr (size_not (wrap (align - 1))) + align)).
    assert (0 <= q < size_modulus) as Hq by apply wrap_range.
    assert (align | q) as Hdiv.
    { destruct (malloc_ok (LibcOk := HL) (trace w) (wrap (size + align)))
        as [Hz | (Hpos & Hend & _)]; [apply wrap_range | contradiction |].
      fold ptr in Hpos, Hend.
      pose proof (wrap_range (size + align)).
      unfold q. destruct Ha as (k & Hk & ->).
      rewrite (wrap_small (2 ^ k - 1)) by lia.
      rewrite land_not_mask by lia.
      apply wrap_divide; [now exists k | assumption |].
      now apply round_down_step_divide. }
    assert (0 <= wrap (q - ptr_bytes) /\ wrap (q - ptr_bytes) + ptr_bytes <= size_modulus)
      as Hword.
    { destruct (Z.eq_dec q 0) as [-> | Hq0].
      - rewrite Hnull. lia.
      - destruct Hdiv as [c Hc]. assert (1 <= c) by nia.
        rewrite wrap_small by nia. nia. }
    split; [exact Hword |].
    intros Hdisj.
    rewrite load_store_other by (unfold disjoint_ranges in Hdisj; lia).
    apply load_log_event.
Qed.

(** In the build that selects the fallback, [allocate] throws exactly when
    plain [malloc] fails; otherwise it returns a multiple of [Align], and
    the [n] elements as well as the back-pointer word lie inside the block
    that [malloc] handed out. *)
Theorem allocate_fallback_contract self n hint w :
  LibcOk P L ->
  is_pow2 (alignment self) -> ptr_bytes <= alignment self ->
  1 <= sizeof_T self -> 0 <= n ->
  sizeof_T self * n + alignment self < size_modulus ->
  let bytes := sizeof_T self * n in
  let raw := malloc_fn (trace w) (bytes + alignment self) in
  match fst (allocate fallback_build self n hint w) with
  | Thrown _ => raw = 0
  | Returned q =>
      raw <> 0 /\ (alignment self | q) /\
      within_block raw (bytes + alignment self) q bytes /\
      within_block raw (bytes + alignment self) (q - ptr_bytes) ptr_bytes
  end.
Proof.
  intros HL Ha Hpa Hsz Hn Hsum bytes raw.
  pose proof (is_pow2_pos _ Ha) as Hapos.
  assert (0 <= bytes) as Hbytes by (unfold bytes; nia).
  pose proof (allocate_unfold fallback_build self n hint w) as Hun. cbv zeta in Hun.
  rewrite Hun. cbn [fst]. fold bytes.
  rewrite (wrap_small bytes) by lia.
  change (aligned_malloc fallback_build bytes (alignment self) w)
    with (detail.nx_aligned_malloc bytes (alignment self) w).
  destruct (malloc_ok (LibcOk := HL) (trace w) (bytes + alignment self) ltac:(lia))
    as [Hz | Hblock]; [fold raw in Hz | fold raw in Hblock].
  - rewrite nx_aligned_malloc_null
      by (rewrite (wrap_small (bytes + alignment self)) by lia; exact Hz).
    cbn. exact Hz.
  - destruct (nx_aligned_malloc_success bytes (alignment self) w Ha Hpa Hbytes Hsum Hblock)
      as (-> & Hq & Hdiv).
    fold raw in Hq, Hdiv |- *. cbn [fst].
    destruct Hblock as (Hpos & Hend & _).
    pose proof (is_pow2_pos _ ptr_bytes_pow2) as Hpb.
    destruct (Z.eqb_spec (raw - raw mod alignment self + alignment self) 0); [lia |].
    unfold within_block. repeat split; try assumption; lia.
Qed.

(** Take a C library that honours its contract, two power-of-two
    alignments of at least the size of a pointer, and two sizes with
    [size + alignment] below [2 ^ size_bits].  Two blocks obtained one after
    the other from the fallback do not disturb each other when plain
    [malloc] hands out disjoint blocks: each back-pointer word still holds
    its own raw pointer, the two extents, back-pointer word and user bytes
    together, share no byte, and releasing the first still frees its own raw
    block. *)
Theorem fallback_allocations_independent s1 a1 s2 a2 w q1 w1 q2 w2 :
  LibcOk P L ->
  is_pow2 a1 -> ptr_bytes <= a1 -> 0 <= s1 -> s1 + a1 < size_modulus ->
  is_pow2 a2 -> ptr_bytes <= a2 -> 0 <= s2 -> s2 + a2 < size_modulus ->
  detail.nx_aligned_malloc s1 a1 w = (q1, w1) -> q1 <> 0 ->
  detail.nx_aligned_malloc s2 a2 w1 = (q2, w2) -> q2 <> 0 ->
  let p1 := malloc_fn (trace w) (s1 + a1) in
  let p2 := malloc_fn (trace w1) (s2 + a2) in
  disjoint_ranges p1 (s1 + a1) p2 (s2 + a2) ->
  load_word w2 (q1 - ptr_bytes) = p1 /\
  load_word w2 (q2 - ptr_bytes) = p2 /\
  disjoint_ranges q1 s1 q2 s2 /\
  disjoint_ranges (q1 - ptr_bytes) (ptr_bytes + s1) (q2 - ptr_bytes) (ptr_bytes + s2) /\
  detail.nx_aligned_free q1 w2 = (tt, log_event (EvFree p1) w2).
Proof.
  intros HL Ha1 Hpa1 Hs1 Hsum1 Ha2 Hpa2 Hs2 Hsum2 Hrun1 Hq1 Hrun2 Hq2 p1 p2 Hdisj.
  pose proof (is_pow2_pos _ Ha1) as Ha1pos. pose proof (is_pow2_pos _ Ha2) as Ha2pos.
  pose proof (is_pow2_pos _ ptr_bytes_pow2) as Hpb.
  destruct (malloc_ok (LibcOk := HL) (trace w) (s1 + a1) ltac:(lia)) as [Hz | Hb1];
    [fold p1 in Hz | fold p1 in Hb1].
  { rewrite nx_aligned_malloc_null in Hrun1
      by (rewrite (wrap_small (s1 + a1)) by lia; exact Hz).
    injection Hrun1 as <- _. contradiction. }
  destruct (malloc_ok (LibcOk := HL) (trace w1) (s2 + a2) ltac:(lia)) as [Hz | Hb2];
    [fold p2 in Hz | fold p2 in Hb2].
  { rewrite nx_aligned_malloc_null in Hrun2
      by (rewrite (wrap_small (s2 + a2)) by lia; exact Hz).
    injection Hrun2 as <- _. contradiction. }
  destruct (nx_aligned_malloc_success s1 a1 w Ha1 Hpa1 Hs1 Hsum1 Hb1) as (E1 & Hr1 & _).
  destruct (nx_aligned_malloc_success s2 a2 w1 Ha2 Hpa2 Hs2 Hsum2 Hb2) as (E2 & Hr2 & _).
  fold p1 in E1, Hr1. fold p2 in E2, Hr2.
  rewrite E1 in Hrun1. injection Hrun1 as Eq1 Ew1.
  rewrite E2 in Hrun2. injection Hrun2 as Eq2 Ew2.
  rewrite Eq1 in *. rewrite Eq2 in *.
  destruct Hb1 as (Hp1 & Hend1 & _). destruct Hb2 as (Hp2 & Hend2 & _).
  assert (load_word w2 (q1 - ptr_bytes) = p1) as Hload1.
  { rewrite <- Ew2. rewrite load_store_other by (unfold disjoint_ranges in Hdisj; lia).
    rewrite load_log_event, <- Ew1. apply load_store_same. }
  split; [exact Hload1 |].
  split; [rewrite <- Ew2; apply load_store_same |].
  split; [unfold disjoint_ranges in *; lia |].
  split; [unfold disjoint_ranges in *; lia |].
  unfold detail.nx_aligned_free, bind, load_ptr, free.
  destruct (Z.eqb_spec q1 0); [contradiction |]. cbn [negb].
  rewrite (wrap_small (q1 - ptr_bytes)) by lia.
  now rewrite Hload1.
Qed.

(** When [size + alignment] passes the end of the [size_t] range, the
    fallback asks plain [malloc] for [size + alignment - 2 ^ size_bits]
    bytes, fewer than [alignment] and fewer than [size]. *)
Theorem nx_aligned_malloc_request_wraps size align w :
  0 <= size < size_modulus -> 0 <= align < size_modulus ->
  size_modulus <= size + align ->
  let n := size + align - size_modulus in
  n < align /\ n < size /\
  exists r, trace (snd (detail.nx_aligned_malloc size align w))
            = EvMalloc n r :: trace w.
Proof.
  intros Hsize Halign Hover n.
  split; [unfold n; lia |]. split; [unfold n; lia |].
  assert (wrap (size + align) = n) as Hw.
  { unfold wrap, n. symmetry. apply Z.mod_unique_pos with (q := 1); lia. }
  destruct (Z.eq_dec (malloc_fn (trace w) (wrap (size + align))) 0) as [Hz | Hnz].
  - rewrite nx_aligned_malloc_null by assumption. rewrite Hw. now exists 0.
  - rewrite nx_aligned_malloc_nonnull by assumption. rewrite Hw. cbn.
    now eexists.
Qed.

End RoundTrip.

Section Release.
Context {P : Platform} {L : Libc}.

(** In every build, whatever [allocate] returned can be handed to
    [deallocate] of any allocator, with any count: [allocate] made one call
    of the C library, [deallocate] makes one more, with the release function
    that goes with it, on the very pointer the library had handed out. *)
Theorem allocate_deallocate_roundtrip cfg self other n hint n' w q w1 :
  allocate cfg self n hint w = (Returned q, w1) ->
  exists acq rel raw,
    trace w1 = acq :: trace w /\
    deallocate cfg other q n' w1 = (tt, log_event rel w1) /\
    release_matches acq rel = true /\
    acquired acq = Some raw /\ released rel = Some raw /\ raw <> 0.
Proof.
  intros Hrun.
  pose proof (allocate_unfold cfg self n hint w) as Hun. cbv zeta in Hun.
  rewrite Hun in Hrun. clear Hun.
  set (bytes := wrap (sizeof_T self * n)) in *.
  set (al := alignment self) in *.
  injection Hrun as Hres Hw1.
  destruct (Z.eqb_spec (fst (aligned_malloc cfg bytes al w)) 0) as [| Hq];
    [discriminate |].
  injection Hres as Hres. rewrite Hres in Hq.
  revert Hres Hw1. unfold deallocate, aligned_malloc, aligned_free.
  destruct (NX_MALLOC_ALREADY_ALIGNED cfg).
  { cbn. intros <- <-. do 3 eexists. repeat split; try reflexivity; exact Hq. }
  destruct (NX_HAS_MM_MALLOC cfg).
  { cbn. intros <- <-. do 3 eexists. repeat split; try reflexivity; exact Hq. }
  destruct (NX_HAS_POSIX_MEMALIGN cfg).
  { unfold bind, posix_memalign, ret. cbn [fst snd].
    destruct (Z.eqb_spec (fst (posix_memalign_fn (trace w) bytes al)) 0) as [He | Hne];
      cbn [negb]; [| intros <-; contradiction].
    intros <- <-. exists (EvPosixMemalign bytes al
                            (fst (posix_memalign_fn (trace w) bytes al))
                            (snd (posix_memalign_fn (trace w) bytes al))).
    do 2 eexists. cbn. rewrite He. cbn.
    repeat split; try reflexivity; exact Hq. }
  destruct (MSC_VER cfg).
  { cbn. intros <- <-. do 3 eexists. repeat split; try reflexivity; exact Hq. }
  destruct (Z.eq_dec (malloc_fn (trace w) (wrap (bytes + al))) 0) as [Hz | Hnz].
  { rewrite nx_aligned_malloc_null by assumption. cbn. intros <-. contradiction. }
  rewrite nx_aligned_malloc_nonnull by assumption. cbn [fst snd].
  intros Hres <-. rewrite Hres.
  unfold detail.nx_aligned_free, bind, load_ptr, free.
  destruct (Z.eqb_spec q 0); [contradiction |]. cbn [negb].
  rewrite load_store_same.
  do 3 eexists. repeat split; try reflexivity; exact Hnz.
Qed.

(** [deallocate] never writes a memory cell and never allocates: either it
    leaves the world as it is, or it adds one call, a release. *)
Theorem deallocate_only_releases cfg self p n w :
  let w' := snd (deallocate cfg self p n w) in
  mem w' = mem w /\
  (w' = w \/ exists rel v, released rel = Some v /\ w' = log_event rel w).
Proof.
  unfold deallocate, aligned_free.
  destruct (NX_MALLOC_ALREADY_ALIGNED cfg);
    [cbn; split; [reflexivity | right; now do 2 eexists] |].
  destruct (NX_HAS_MM_MALLOC cfg);
    [cbn; split; [reflexivity | right; now do 2 eexists] |].
  destruct (NX_HAS_POSIX_MEMALIGN cfg);
    [cbn; split; [reflexivity | right; now do 2 eexists] |].
  destruct (MSC_VER cfg);
    [cbn; split; [reflexivity | right; now do 2 eexists] |].
  unfold detail.nx_aligned_free, bind, load_ptr, free, ret.
  destruct (p =? 0); cbn.
  - split; [reflexivity | now left].
  - split; [reflexivity | right; now do 2 eexists].
Qed.

End Release.

(** ** The largest count and the byte count *)

(** The byte count [sizeof(T) * n] that [allocate] computes is the exact
    product precisely for the counts up to [size_max()]. *)
Theorem size_max_threshold {P : Platform} (HP : PlatformOk P) self n :
  1 <= sizeof_T self -> 0 <= n ->
  wrap (sizeof_T self * n) = sizeof_T self * n <-> n <= size_max self.
Proof.
  intros Hsz Hn. unfold size_max. rewrite wrap_ones.
  pose proof size_modulus_pos as HM.
  set (s := sizeof_T self) in *.
  pose proof (Z.div_mod (size_modulus - 1) s ltac:(lia)) as Hdm.
  pose proof (Z.mod_pos_bound (size_modulus - 1) s ltac:(lia)) as Hmod.
  split.
  - intros Hw. pose proof (wrap_range (s * n)) as Hr. rewrite Hw in Hr.
    apply Z.div_le_lower_bound; lia.
  - intros Hle. apply wrap_small. nia.
Qed.

(** ** Equality of allocators *)

(** [operator==] is an equivalence relation, and the allocator obtained
    by [rebind] for another element type is equal to the one it comes from. *)
Theorem op_eq_equivalence (a b c : aligned_allocator) (sizeof_U : Z) :
  op_eq a a = true /\
  op_eq a b = op_eq b a /\
  (op_eq a b = true -> op_eq b c = true -> op_eq a c = true) /\
  op_eq (rebind a sizeof_U) a = true /\
  op_ne (rebind a sizeof_U) a = false.
Proof.
  unfold op_ne, op_eq, rebind. cbn [alignment].
  rewrite Z.eqb_refl.
  repeat split.
  - apply Z.eqb_sym.
  - intros Hab Hbc. apply Z.eqb_eq in Hab, Hbc. apply Z.eqb_eq. congruence.
Qed.

(** ** The further properties on the bump allocator *)

Lemma aligned_malloc_aligned_witness :
  let q := fst (aligned_malloc (P := lp64) (L := bump_libc) fallback_build 8 16 w0) in
  q = 0 \/ (16 | q).
Proof.
  apply (aligned_malloc_aligned (P := lp64) (HP := lp64_ok) (L := bump_libc)
           fallback_build 8 16 w0 bump_libc_ok).
  - exact is_pow2_16.
  - reflexivity.
  - lia.
  - discriminate.
  - reflexivity.
Defined.

Lemma aligned_malloc_posix_swapped_witness :
  let q := fst (aligned_malloc (P := lp64) (L := bump_libc) posix_build 8 16 w0) in
  (posix_alignment_ok 8 = false -> q = 0) /\
  (q <> 0 -> block_ok q 16 8).
Proof.
  apply (aligned_malloc_posix_swapped (P := lp64) (L := bump_libc)
           posix_build 8 16 w0 bump_libc_ok).
  - lia.
  - reflexivity.
  - reflexivity.
  - reflexivity.
Defined.

Lemma nx_aligned_malloc_frame_witness :
  let r := detail.nx_aligned_malloc (P := lp64) (L := bump_libc) 8 16 w0 in
  load_word (snd r) 4128 = load_word w0 4128.
Proof.
  intros r.
  apply (nx_aligned_malloc_frame (P := lp64) (HP := lp64_ok) (L := bump_libc)
           8 16 w0 4128 bump_libc_ok).
  - exact is_pow2_16.
  - reflexivity.
  - vm_compute. discriminate.
  - right. vm_compute. discriminate.
Defined.

Lemma allocate_fallback_contract_witness :
  let bytes := 8 * 3 in
  let raw := malloc_fn (Libc := bump_libc) (trace w0) (bytes + 16) in
  match fst (allocate (P := lp64) (L := bump_libc) fallback_build (Allocator 8 16) 3 0 w0) with
  | Thrown _ => raw = 0
  | Returned q =>
      raw <> 0 /\ (16 | q) /\
      within_block raw (bytes + 16) q bytes /\
      within_block raw (bytes + 16) (q - 8) 8
  end.
Proof.
  apply (allocate_fallback_contract (P := lp64) (HP := lp64_ok) (L := bump_libc)
           (Allocator 8 16) 3 0 w0 bump_libc_ok).
  - exact is_pow2_16.
  - vm_compute. discriminate.
  - vm_compute. discriminate.
  - lia.
  - reflexivity.
Defined.

Lemma fallback_allocations_independent_witness :
  let r1 := detail.nx_aligned_malloc (P := lp64) (L := bump_libc) 8 16 w0 in
  let r2 := detail.nx_aligned_malloc (P := lp64) (L := bump_libc) 40 32 (snd r1) in
  load_word (snd r2) (4128 - 8) = 4112 /\
  load_word (snd r2) (4160 - 8) = 4144 /\
  disjoint_ranges 4128 8 4160 40 /\
  disjoint_ranges (4128 - 8) (8 + 8) (4160 - 8) (8 + 40) /\
  detail.nx_aligned_free 4128 (snd r2) = (tt, log_event (EvFree 4112) (snd r2)).
Proof.
  intros r1 r2.
  apply (fallback_allocations_independent (P := lp64) (HP := lp64_ok) (L := bump_libc)
           8 16 40 32 w0 4128 (snd r1) 4160 (snd r2) bump_libc_ok).
  - exact is_pow2_16.
  - vm_compute. discriminate.
  - lia.
  - reflexivity.
  - exists 5. split; [lia | reflexivity].
  - vm_compute. discriminate.
  - lia.
  - reflexivity.
  - reflexivity.
  - discriminate.
  - reflexivity.
  - discriminate.
  - left. vm_compute. discriminate.
Defined.

Lemma nx_aligned_malloc_request_wraps_witness :
  let n := 2 ^ 64 - 8 + 16 - size_modulus in
  n < 16 /\ n < 2 ^ 64 - 8 /\
  exists r, trace (snd (detail.nx_aligned_malloc (P := lp64) (L := bump_libc)
                          (2 ^ 64 - 8) 16 w0))
            = EvMalloc n r :: trace w0.
Proof.
  apply (nx_aligned_malloc_request_wraps (P := lp64) (L := bump_libc) (2 ^ 64 - 8) 16 w0).
  - vm_compute. split; [discriminate | reflexivity].
  - vm_compute. split; [discriminate | reflexivity].
  - vm_compute. discriminate.
Defined.

Lemma allocate_deallocate_roundtrip_witness :
  let w1 := snd (allocate (P := lp64) (L := bump_libc) fallback_build
                   (Allocator 8 16) 1 0 w0) in
  exists acq rel raw,
    trace w1 = acq :: trace w0 /\
    deallocate fallback_build (Allocator 4 16) 4128 5 w1 = (tt, log_event rel w1) /\
    release_matches acq rel = true /\
    acquired acq = Some raw /\ released rel = Some raw /\ raw <> 0.
Proof.
  intros w1.
  apply (allocate_deallocate_roundtrip (P := lp64) (L := bump_libc) fallback_build
           (Allocator 8 16) (Allocator 4 16) 1 0 5 w0 4128 w1).
  reflexivity.
Defined.

Lemma size_max_threshold_witness :
  wrap (4 * 10) = 4 * 10.
Proof.
  apply (size_max_threshold lp64_ok (Allocator 4 16) 10).
  - vm_compute. discriminate.
  - lia.
  - vm_compute. discriminate.
Defined.

Lemma op_eq_equivalence_witness :
  op_eq (Allocator 4 16) (Allocator 2 16) = true.
Proof.
  apply (op_eq_equivalence (Allocator 4 16) (Allocator 8 16) (Allocator 2 16) 1);
    reflexivity.
Defined.
